(** * LetList: the let-binding builder of [src/relay/pass/let_list.h]

    A shallow embedding of [class LetList] (TVM Relay) and the properties
    of its operations [Push] (three overloads), [Get] and [With].

    The class keeps two private fields, [lets_] (a vector of
    (variable, expression) pairs) and [used_] (a flag, initially false).
    Its methods read and write these fields, allocate variable nodes
    ([VarNode::make]) and may die on [CHECK(!used_)].  They are embedded
    as functions in a state-and-failure monad whose state holds the
    object the method is called on and the node allocator. *)

From stdpp Require Import base list strings.

Set Default Proof Using "Type".

(** ** The term representation the header includes *)

(** Modelled from the spec: the name a variable is synthesized with.
    [VarNode::make] of [tvm/relay/expr.h] is handed a name text and gives
    the node it makes a name; the specification words the result as
    "freshly synthesized with a name guaranteed unique within a
    sequence".  What the constructor makes of the text it is handed is
    not in [let_list.h], which shows only the text that is passed, so it
    is an interface of the development: [var_name hint n] is the name of
    the node [n] made from the text [hint]. *)
Class VarNaming : Type := var_name : string → nat → string.

(** The specification's guarantee for the constructor: two nodes made
    from one text have different names. *)
Definition unique_names `{VarNaming} : Prop :=
  ∀ hint n m, var_name hint n = var_name hint m → n = m.

(** A constructor that keeps the text it is handed as the name. *)
Definition keeps_hint `{VarNaming} : Prop :=
  ∀ hint n, var_name hint n = hint.

(** A naming with the specification's guarantee, for the concrete
    builders at the end: the text followed by one prime for each node
    made before. *)
Fixpoint primes (n : nat) : string :=
  match n with
  | 0 => EmptyString
  | S n' => String.append "'" (primes n')
  end.

Definition primed_naming : VarNaming := fun hint n => String.append hint (primes n).

Section LetList.

(** [tvm/relay/type.h] is not part of the unit: the payload of a
    non-null type reference is a parameter of the development. *)
Context {TypeNode : Type}.

(** [tvm/relay/expr.h] is not part of the unit either: the naming of
    its variable constructor is the other parameter. *)
Context {naming : VarNaming}.

(** [Type] is a nullable reference; the default-constructed [Type()]
    is the null reference, written [None]. *)
Definition Type_ : Type := option TypeNode.

Definition Type_null : Type_ := None.

(** Modelled from the spec: [Var] of [tvm/relay/expr.h], "a
    distinguishable named reference; must support being freshly
    synthesized with a name guaranteed unique within a sequence,
    optionally annotated with a declared type".  A [Var] is a reference
    to an immutable [VarNode];
    two references are the same variable when they point to the same
    node, so the embedding carries the node's identity [node] next to
    the node's fields [name_hint] and [type_annotation]. *)
Record Var : Type := mkVar {
  node : nat;
  name_hint : string;
  type_annotation : Type_
}.

(** Modelled from the spec: [Expr] of [tvm/relay/expr.h], with the
    let-construct as "a ternary node form (bound variable, bound
    expression, continuation expression)".  Variables are expressions;
    [ECall] and [EOp] are the forms the header's own example builds
    ([CallNode::make(plus, {a, a})], [Op::Get("plus")]). *)
#[warnings="-register-all"]
Inductive Expr : Type :=
| EVar (v : Var)
| ELet (var : Var) (value : Expr) (body : Expr)
| ECall (op : Expr) (args : list Expr)
| EOp (name : string).

(** Modelled from the spec: [LetNode::make(var, value, body)] of
    [tvm/relay/expr.h], the "ternary node form". *)
Definition LetNode_make (var : Var) (value body : Expr) : Expr :=
  ELet var value body.

(** ** The object and the monad of its methods *)

(** The private fields of [class LetList]. *)
Record LetList : Type := mkLetList {
  lets_ : list (Var * Expr);
  used_ : bool
}.

(** [LetList ll;] : the default member initialisers. *)
Definition LetList_new : LetList := {| lets_ := []; used_ := false |}.

(** What a method runs against: the object it is called on and the
    identity the next allocated node receives. *)
Record State : Type := mkState {
  fresh_node : nat;
  this : LetList
}.

(** The two ways a call can die: a [CHECK] whose condition is false, and
    a failure raised by caller code. *)
Inductive Failure : Type :=
| CheckFailed (cond : string)
| Thrown (what : string).

(** A result keeps the state the call ended in, also when it died. *)
Inductive Result (A : Type) : Type :=
| Ok (a : A) (s : State)
| Fatal (err : Failure) (s : State).
#[global] Arguments Ok {A} a s.
#[global] Arguments Fatal {A} err s.

Definition M (A : Type) : Type := State → Result A.

Definition ret {A} (a : A) : M A := fun s => Ok a s.

Definition bind {A B} (m : M A) (k : A → M B) : M B :=
  fun s => match m s with
           | Ok a s' => k a s'
           | Fatal err s' => Fatal err s'
           end.

Definition state_of {A} (r : Result A) : State :=
  match r with Ok _ s | Fatal _ s => s end.

Local Notation "x <- m ;; k" := (bind m (fun x => k))
  (at level 100, m at next level, right associativity, only parsing).
Local Notation "m ;;; k" := (bind m (fun _ => k))
  (at level 100, right associativity, only parsing).

(** [CHECK(cond)]: dies with the text of the condition when it is false. *)
Definition CHECK (cond : bool) (text : string) : M unit :=
  fun s => if cond then Ok tt s else Fatal (CheckFailed text) s.

(** Reads and writes of the fields of [*this]. *)
Definition read_used_ : M bool := fun s => Ok (used_ (this s)) s.

Definition read_lets_ : M (list (Var * Expr)) := fun s => Ok (lets_ (this s)) s.

Definition write_used_ (b : bool) : M unit :=
  fun s => Ok tt {| fresh_node := fresh_node s;
                    this := {| lets_ := lets_ (this s); used_ := b |} |}.

(** [lets_.emplace_back(p)]. *)
Definition emplace_back (p : Var * Expr) : M unit :=
  fun s => Ok tt {| fresh_node := fresh_node s;
                    this := {| lets_ := lets_ (this s) ++ [p];
                               used_ := used_ (this s) |} |}.

(** Modelled from the spec: [VarNode::make(name_hint, type_annotation)]
    of [tvm/relay/expr.h], by which a variable is "freshly synthesized
    with a name guaranteed unique within a sequence" and the supplied
    type is attached to it.  It makes a new node, whose identity no
    earlier node has; the node's name is the one the constructor's
    naming gives it from the text it is handed. *)
Definition VarNode_make (name : string) (ty : Type_) : M Var :=
  fun s => Ok {| node := fresh_node s;
                 name_hint := var_name name (fresh_node s);
                 type_annotation := ty |}
              {| fresh_node := S (fresh_node s); this := this s |}.

(** ** The methods *)

(** [Var Push(Var pv, Expr expr)]. *)
Definition Push_Var (pv : Var) (expr : Expr) : M Var :=
  used <- read_used_ ;;
  CHECK (negb used) "!used_" ;;;
  emplace_back (pv, expr) ;;;
  ret pv.

(** [Var Push(Type ty, Expr expr)]: the argument [VarNode::make("x", ty)]
    is evaluated before the call it is passed to. *)
Definition Push_Type (ty : Type_) (expr : Expr) : M Var :=
  pv <- VarNode_make "x" ty ;;
  Push_Var pv expr.

(** [Var Push(Expr expr)]. *)
Definition Push (expr : Expr) : M Var :=
  Push_Type Type_null expr.

(** [Expr Get(const Expr& body)]: the loop runs over [lets_] through its
    reverse iterator, from [rbegin()] to [rend()]. *)
Definition Get (body : Expr) : M Expr :=
  used <- read_used_ ;;
  CHECK (negb used) "!used_" ;;;
  lets <- read_lets_ ;;
  let ret_ := fold_left (fun ret_ rit => LetNode_make (fst rit) (snd rit) ret_)
                        (rev lets) body in
  write_used_ true ;;;
  ret ret_.

(** [static Expr With(F&& f)]: [f] is any callable taking [LetList*]; it
    runs against the local [ll].  The caller's world is the allocator. *)
Definition With (f : M Expr) (fresh : nat) : Result Expr :=
  (body <- f ;; Get body) {| fresh_node := fresh; this := LetList_new |}.

(** ** Callers *)

(** One call of one of the three [Push] overloads. *)
Inductive PushCall : Type :=
| ByVar (pv : Var) (expr : Expr)
| ByType (ty : Type_) (expr : Expr)
| ByExpr (expr : Expr).

Definition pushed_expr (c : PushCall) : Expr :=
  match c with ByVar _ e | ByType _ e | ByExpr e => e end.

Definition anonymous (c : PushCall) : bool :=
  match c with ByVar _ _ => false | _ => true end.

Definition push (c : PushCall) : M Var :=
  match c with
  | ByVar pv e => Push_Var pv e
  | ByType ty e => Push_Type ty e
  | ByExpr e => Push e
  end.

(** A run of successive [Push] calls; the result lists the returned
    variables in call order. *)
Fixpoint push_all (cs : list PushCall) : M (list Var) :=
  match cs with
  | [] => ret []
  | c :: cs' => v <- push c ;; vs <- push_all cs' ;; ret (v :: vs)
  end.

(** A caller that reaches the builder only through its public
    interface, as the callable handed to [With] does: it returns, raises
    a failure of its own, makes a variable, or calls a method and goes on
    with what the method returned. *)
Inductive Client (A : Type) : Type :=
| Return (a : A)
| Throw (what : string)
| Call_VarNode_make (name : string) (ty : Type_) (k : Var → Client A)
| Call_Push_Var (pv : Var) (expr : Expr) (k : Var → Client A)
| Call_Push_Type (ty : Type_) (expr : Expr) (k : Var → Client A)
| Call_Push (expr : Expr) (k : Var → Client A)
| Call_Get (body : Expr) (k : Expr → Client A).
#[global] Arguments Return {A} a.
#[global] Arguments Throw {A} what.
#[global] Arguments Call_VarNode_make {A} name ty k.
#[global] Arguments Call_Push_Var {A} pv expr k.
#[global] Arguments Call_Push_Type {A} ty expr k.
#[global] Arguments Call_Push {A} expr k.
#[global] Arguments Call_Get {A} body k.

(** Running a client.  Next to the result, [exec] records the builder
    as it is after every method call the client makes. *)
Definition after_call {A B} (r : Result A)
    (k : A → State → list LetList * Result B) : list LetList * Result B :=
  match r with
  | Ok a s' => let '(h, r') := k a s' in (this s' :: h, r')
  | Fatal err s' => ([this s'], Fatal err s')
  end.

Fixpoint exec {A} (p : Client A) (s : State) : list LetList * Result A :=
  match p with
  | Return a => ([], Ok a s)
  | Throw what => ([], Fatal (Thrown what) s)
  | Call_VarNode_make name ty k =>
      match VarNode_make name ty s with
      | Ok v s' => exec (k v) s'
      | Fatal err s' => ([], Fatal err s')
      end
  | Call_Push_Var pv e k => after_call (Push_Var pv e s) (fun v => exec (k v))
  | Call_Push_Type ty e k => after_call (Push_Type ty e s) (fun v => exec (k v))
  | Call_Push e k => after_call (Push e s) (fun v => exec (k v))
  | Call_Get body k => after_call (Get body s) (fun r => exec (k r))
  end.

Definition run {A} (p : Client A) : M A := fun s => snd (exec p s).

(** The builder over one call [With(f)]: as created, after every call
    [f] makes on it, and after the [Get] of [With] when [f] returned. *)
Definition With_history (f : Client Expr) (fresh : nat) : list LetList :=
  let s0 := {| fresh_node := fresh; this := LetList_new |} in
  let '(h, r) := exec f s0 in
  LetList_new :: h ++
    match r with
    | Ok body s => [this (state_of (Get body s))]
    | Fatal _ _ => []
    end.

(** The number of open-to-closed transitions along a history. *)
Fixpoint closings (h : list LetList) : nat :=
  match h with
  | a :: (b :: _) as h' =>
      (if negb (used_ a) && used_ b then 1 else 0) + closings h'
  | _ => 0
  end.

(** The header's example, [mult_sixteen]: the callable it hands to
    [With] pushes [a + a], then [b + b], then [c + c], and returns
    [d + d]. *)
Definition plus : Expr := EOp "plus".

Definition mult_sixteen_body (a : Var) : Client Expr :=
  Call_Push (ECall plus [EVar a; EVar a]) (fun b =>
  Call_Push (ECall plus [EVar b; EVar b]) (fun c =>
  Call_Push (ECall plus [EVar c; EVar c]) (fun d =>
  Return (ECall plus [EVar d; EVar d])))).

(** ** Specification-side definitions *)

(** The nesting the specification describes: the first binding
    outermost, the body innermost. *)
Fixpoint nested_lets (bs : list (Var * Expr)) (body : Expr) : Expr :=
  match bs with
  | [] => body
  | (v, e) :: bs' => ELet v e (nested_lets bs' body)
  end.

(** The binding at let-level [k], counted from the outside, from 0. *)
Fixpoint let_level (k : nat) (e : Expr) : option (Var * Expr) :=
  match e with
  | ELet v value body =>
      match k with
      | 0 => Some (v, value)
      | S k' => let_level k' body
      end
  | _ => None
  end.

(** What is left under the [n] outermost lets. *)
Fixpoint under_lets (n : nat) (e : Expr) : option Expr :=
  match n with
  | 0 => Some e
  | S n' => match e with
            | ELet _ _ body => under_lets n' body
            | _ => None
            end
  end.

(** [With] in the specification's words: a fresh builder, the operation
    run on it, then [Get] on the body the operation returned. *)
Definition With_spec (f : M Expr) (fresh : nat) : Result Expr :=
  match f {| fresh_node := fresh; this := LetList_new |} with
  | Ok body s => Get body s
  | Fatal err s => Fatal err s
  end.

(** ** States the methods leave, and measures of runs *)

Definition open (s : State) : Prop := used_ (this s) = false.

Definition closed (s : State) : Prop := used_ (this s) = true.

(** The state a successful [Push(pv, expr)] leaves. *)
Definition pushed (pv : Var) (expr : Expr) (s : State) : State :=
  {| fresh_node := fresh_node s;
     this := {| lets_ := lets_ (this s) ++ [(pv, expr)]; used_ := used_ (this s) |} |}.

(** The state a successful [Get] leaves. *)
Definition finalized (s : State) : State :=
  {| fresh_node := fresh_node s;
     this := {| lets_ := lets_ (this s); used_ := true |} |}.

(** The state after [VarNode::make]. *)
Definition allocated (s : State) : State :=
  {| fresh_node := S (fresh_node s); this := this s |}.

(** The number of nodes a run of pushes allocates. *)
Fixpoint allocations (cs : list PushCall) : nat :=
  match cs with
  | [] => 0
  | c :: cs' => (if anonymous c then 1 else 0) + allocations cs'
  end.

(** Along a monotone history a closed builder stays closed. *)
Fixpoint monotone (a : LetList) (h : list LetList) : Prop :=
  match h with
  | [] => True
  | b :: h' => (used_ a = true → used_ b = true) ∧ monotone b h'
  end.

(** ** More callers, and measures of expressions *)

(** Clients that never call [Get]. *)
Fixpoint Get_free {A} (p : Client A) : Prop :=
  match p with
  | Return _ | Throw _ => True
  | Call_VarNode_make _ _ k => ∀ v, Get_free (k v)
  | Call_Push_Var _ _ k => ∀ v, Get_free (k v)
  | Call_Push_Type _ _ k => ∀ v, Get_free (k v)
  | Call_Push _ k => ∀ v, Get_free (k v)
  | Call_Get _ _ => False
  end.

(** Clients that never push a variable of their own. *)
Fixpoint anonymous_only {A} (p : Client A) : Prop :=
  match p with
  | Return _ | Throw _ => True
  | Call_VarNode_make _ _ k => ∀ v, anonymous_only (k v)
  | Call_Push_Var _ _ _ => False
  | Call_Push_Type _ _ k => ∀ v, anonymous_only (k v)
  | Call_Push _ k => ∀ v, anonymous_only (k v)
  | Call_Get _ k => ∀ r, anonymous_only (k r)
  end.

(** One client after another: [k] goes on with what [p] returned. *)
Fixpoint then_ {A B} (p : Client A) (k : A → Client B) : Client B :=
  match p with
  | Return a => k a
  | Throw what => Throw what
  | Call_VarNode_make name ty k' => Call_VarNode_make name ty (fun v => then_ (k' v) k)
  | Call_Push_Var pv e k' => Call_Push_Var pv e (fun v => then_ (k' v) k)
  | Call_Push_Type ty e k' => Call_Push_Type ty e (fun v => then_ (k' v) k)
  | Call_Push e k' => Call_Push e (fun v => then_ (k' v) k)
  | Call_Get body k' => Call_Get body (fun r => then_ (k' r) k)
  end.

(** A call [LetList::With(g)] made by code that is itself working on a
    builder: [With] has a builder of its own, and shares with its caller
    the allocator only. *)
Definition call_With (g : M Expr) : M Expr :=
  fun s => match With g (fresh_node s) with
           | Ok e s' => Ok e {| fresh_node := fresh_node s'; this := this s |}
           | Fatal err s' => Fatal err {| fresh_node := fresh_node s'; this := this s |}
           end.

(** What a call gave, without the state it ended in. *)
Definition outcome {A} (r : Result A) : A + Failure :=
  match r with Ok a _ => inl a | Fatal err _ => inr err end.

(** The nodes the builder binds, in push order. *)
Definition bound_nodes (s : State) : list nat :=
  (fun b => node (fst b)) <$> lets_ (this s).

(** The builder binds no node twice, and binds only nodes made since the
    allocator stood at [lo]. *)
Definition distinct_binders (lo : nat) (s : State) : Prop :=
  lo ≤ fresh_node s
  ∧ NoDup (bound_nodes s)
  ∧ Forall (fun n => lo ≤ n < fresh_node s) (bound_nodes s).

(** Every recorded builder extends the one before it. *)
Fixpoint extends_along (a : LetList) (h : list LetList) : Prop :=
  match h with
  | [] => True
  | b :: h' => lets_ a `prefix_of` lets_ b ∧ extends_along b h'
  end.

(** The header's example at any length: [doubling n x] pushes [x + x],
    then the sum of the variable it got with itself, [n] times in all,
    and returns the sum of the last variable with itself;
    [mult_sixteen] is [doubling 3]. *)
Definition add (e1 e2 : Expr) : Expr := ECall plus [e1; e2].

Fixpoint doubling (n : nat) (x : Var) : Client Expr :=
  match n with
  | 0 => Return (add (EVar x) (EVar x))
  | S n' => Call_Push (add (EVar x) (EVar x)) (fun b => doubling n' b)
  end.

(** The same sums written without a builder, as in the header's
    ['b = a + a; c = b + b; d = c + c']. *)
Fixpoint inlined (n : nat) (e : Expr) : Expr :=
  match n with
  | 0 => add e e
  | S n' => inlined n' (add e e)
  end.

(** The number of references to the node [x] in an expression. *)
Fixpoint occurrences (x : nat) (e : Expr) : nat :=
  match e with
  | EVar v => if node v =? x then 1 else 0
  | ELet _ value body => occurrences x value + occurrences x body
  | ECall op args => occurrences x op + foldr Nat.add 0 (map (occurrences x) args)
  | EOp _ => 0
  end.

(** The number of call nodes in an expression. *)
Fixpoint calls (e : Expr) : nat :=
  match e with
  | EVar _ | EOp _ => 0
  | ELet _ value body => calls value + calls body
  | ECall op args => 1 + calls op + foldr Nat.add 0 (map calls args)
  end.

(** [subst x t e]: [t] for the references to the node [x] in [e]. *)
Fixpoint subst (x : nat) (t : Expr) (e : Expr) : Expr :=
  match e with
  | EVar v => if node v =? x then t else e
  | ELet v value body =>
      ELet v (subst x t value) (if node v =? x then body else subst x t body)
  | ECall op args => ECall (subst x t op) (map (subst x t) args)
  | EOp _ => e
  end.

(** [expand e]: every let of [e] replaced by its body with the bound
    expression for the variable. *)
Fixpoint expand (e : Expr) : Expr :=
  match e with
  | ELet v value body => subst (node v) (expand value) (expand body)
  | ECall op args => ECall (expand op) (map expand args)
  | EVar _ | EOp _ => e
  end.

(** The bindings [doubling n x] pushes from allocator position [fresh],
    and the variable it ends with. *)
Fixpoint doubling_lets (n : nat) (x : Var) (fresh : nat) : list (Var * Expr) :=
  match n with
  | 0 => []
  | S n' => (mkVar fresh (var_name "x" fresh) Type_null, add (EVar x) (EVar x))
            :: doubling_lets n' (mkVar fresh (var_name "x" fresh) Type_null) (S fresh)
  end.

Fixpoint doubling_last (n : nat) (x : Var) (fresh : nat) : Var :=
  match n with
  | 0 => x
  | S n' => doubling_last n' (mkVar fresh (var_name "x" fresh) Type_null) (S fresh)
  end.

(** The variables the [Push] calls of a client returned, in call
    order, each marked [true] when the call was anonymous. *)
Fixpoint push_log {A} (p : Client A) (s : State) : list (bool * Var) :=
  match p with
  | Return _ | Throw _ => []
  | Call_VarNode_make name ty k =>
      match VarNode_make name ty s with
      | Ok v s' => push_log (k v) s'
      | Fatal _ _ => []
      end
  | Call_Push_Var pv e k =>
      match Push_Var pv e s with
      | Ok v s' => (false, v) :: push_log (k v) s'
      | Fatal _ _ => []
      end
  | Call_Push_Type ty e k =>
      match Push_Type ty e s with
      | Ok v s' => (true, v) :: push_log (k v) s'
      | Fatal _ _ => []
      end
  | Call_Push e k =>
      match Push e s with
      | Ok v s' => (true, v) :: push_log (k v) s'
      | Fatal _ _ => []
      end
  | Call_Get body k =>
      match Get body s with
      | Ok r s' => push_log (k r) s'
      | Fatal _ _ => []
      end
  end.

(** The variables a client pushes by itself are references to nodes
    that exist when it pushes them. *)
Fixpoint made_before_pushed {A} (p : Client A) (s : State) : Prop :=
  match p with
  | Return _ | Throw _ => True
  | Call_VarNode_make name ty k =>
      match VarNode_make name ty s with
      | Ok v s' => made_before_pushed (k v) s'
      | Fatal _ _ => True
      end
  | Call_Push_Var pv e k =>
      node pv < fresh_node s
      ∧ match Push_Var pv e s with
        | Ok v s' => made_before_pushed (k v) s'
        | Fatal _ _ => True
        end
  | Call_Push_Type ty e k =>
      match Push_Type ty e s with
      | Ok v s' => made_before_pushed (k v) s'
      | Fatal _ _ => True
      end
  | Call_Push e k =>
      match Push e s with
      | Ok v s' => made_before_pushed (k v) s'
      | Fatal _ _ => True
      end
  | Call_Get body k =>
      match Get body s with
      | Ok r s' => made_before_pushed (k r) s'
      | Fatal _ _ => True
      end
  end.

(** A callable can also overwrite the builder it is handed:
    [class LetList] declares no copy or move member, so
    [*ll = LetList()] compiles.  [Assign_after p ll' rest] makes the
    calls of [p], then assigns [ll'] to the builder, then goes on as
    [rest]. *)
Inductive Overwriter : Type :=
| Finish (p : Client Expr)
| Assign_after (p : Client unit) (ll' : LetList) (rest : Overwriter).

Fixpoint exec_overwriter (c : Overwriter) (s : State) : list LetList * Result Expr :=
  match c with
  | Finish p => exec p s
  | Assign_after p ll' rest =>
      let '(h, r) := exec p s in
      match r with
      | Ok _ s1 =>
          let '(h', r') :=
            exec_overwriter rest {| fresh_node := fresh_node s1; this := ll' |} in
          (h ++ ll' :: h', r')
      | Fatal err s1 => (h, Fatal err s1)
      end
  end.

(** [With_history] for any callable that records the builder. *)
Definition With_traced (f : State → list LetList * Result Expr) (fresh : nat)
    : list LetList :=
  let s0 := {| fresh_node := fresh; this := LetList_new |} in
  let '(h, r) := f s0 in
  LetList_new :: h ++
    match r with
    | Ok body s => [this (state_of (Get body s))]
    | Fatal _ _ => []
    end.

(** ** The methods, case by case *)

Lemma Push_Var_open pv expr s :
  open s → Push_Var pv expr s = Ok pv (pushed pv expr s).
Proof.
  unfold open, Push_Var, bind, read_used_, CHECK, emplace_back, ret.
  intros ->. reflexivity.
Qed.

Lemma Push_Var_closed pv expr s :
  closed s → Push_Var pv expr s = Fatal (CheckFailed "!used_") s.
Proof.
  unfold closed, Push_Var, bind, read_used_, CHECK.
  intros ->. reflexivity.
Qed.

Lemma Push_Type_open ty expr s :
  open s →
  Push_Type ty expr s =
    Ok (mkVar (fresh_node s) (var_name "x" (fresh_node s)) ty)
       (pushed (mkVar (fresh_node s) (var_name "x" (fresh_node s)) ty) expr (allocated s)).
Proof.
  intros Hs. unfold Push_Type, bind, VarNode_make.
  apply Push_Var_open. exact Hs.
Qed.

Lemma Push_Type_closed ty expr s :
  closed s → Push_Type ty expr s = Fatal (CheckFailed "!used_") (allocated s).
Proof.
  intros Hs. unfold Push_Type, bind, VarNode_make.
  apply Push_Var_closed. exact Hs.
Qed.

Lemma Get_loop (lets : list (Var * Expr)) (body : Expr) :
  fold_left (fun ret_ rit => LetNode_make (fst rit) (snd rit) ret_) (rev lets) body
  = nested_lets lets body.
Proof.
  induction lets as [|[v e] lets IH]; simpl.
  - reflexivity.
  - rewrite fold_left_app. simpl. rewrite IH. reflexivity.
Qed.

Lemma Get_open body s :
  open s → Get body s = Ok (nested_lets (lets_ (this s)) body) (finalized s).
Proof.
  unfold open, Get, bind, read_used_, CHECK, read_lets_, write_used_, ret.
  intros ->. simpl. rewrite Get_loop. reflexivity.
Qed.

Lemma Get_closed body s :
  closed s → Get body s = Fatal (CheckFailed "!used_") s.
Proof.
  unfold closed, Get, bind, read_used_, CHECK.
  intros ->. reflexivity.
Qed.

Lemma open_or_closed s : {open s} + {closed s}.
Proof. unfold open, closed. destruct (used_ (this s)); [right|left]; reflexivity. Defined.

(** ** The shape of nested lets *)

Lemma let_level_nested (bs : list (Var * Expr)) body k b :
  bs !! k = Some b → let_level k (nested_lets bs body) = Some b.
Proof.
  revert k. induction bs as [|[v e] bs IH]; intros k Hk.
  - rewrite lookup_nil in Hk. discriminate.
  - destruct k as [|k]; simpl in *.
    + exact Hk.
    + apply IH. exact Hk.
Qed.

Lemma under_lets_nested (bs : list (Var * Expr)) body :
  under_lets (length bs) (nested_lets bs body) = Some body.
Proof.
  induction bs as [|[v e] bs IH]; simpl; [reflexivity | exact IH].
Qed.

(** ** Runs of pushes *)

Lemma push_open c s :
  open s →
  ∃ v, push c s = Ok v {| fresh_node := (if anonymous c then 1 else 0) + fresh_node s;
                          this := {| lets_ := lets_ (this s) ++ [(v, pushed_expr c)];
                                     used_ := false |} |}
       ∧ (anonymous c = true →
          node v = fresh_node s ∧ name_hint v = var_name "x" (node v))
       ∧ (∀ pv e, c = ByVar pv e → v = pv).
Proof.
  intros Hs. destruct c as [pv e|ty e|e]; simpl.
  - exists pv. rewrite (Push_Var_open _ _ _ Hs). unfold pushed. rewrite Hs.
    split; [reflexivity|]. split; [discriminate|]. intros ?? [= -> _]. reflexivity.
  - eexists. rewrite (Push_Type_open _ _ _ Hs). unfold pushed, allocated. simpl. rewrite Hs.
    split; [reflexivity|]. split; [split; reflexivity | discriminate].
  - eexists. unfold Push. rewrite (Push_Type_open _ _ _ Hs). unfold pushed, allocated. simpl.
    rewrite Hs. split; [reflexivity|]. split; [split; reflexivity | discriminate].
Qed.

Lemma push_all_open cs : ∀ s,
  open s →
  ∃ vs, push_all cs s =
          Ok vs {| fresh_node := allocations cs + fresh_node s;
                   this := {| lets_ := lets_ (this s) ++ zip vs (pushed_expr <$> cs);
                              used_ := false |} |}
        ∧ length vs = length cs.
Proof.
  induction cs as [|c cs IH]; intros s Hs.
  - exists []. simpl. unfold ret. rewrite app_nil_r. split; [|reflexivity].
    destruct s as [n [l u]]. unfold open in Hs. simpl in *. subst u. reflexivity.
  - destruct (push_open c s Hs) as (v & Hv & _).
    simpl push_all. unfold bind, ret. rewrite Hv.
    match goal with |- context [push_all cs ?s'] =>
      destruct (IH s' eq_refl) as (vs & Hvs & Hlen) end.
    exists (v :: vs). rewrite Hvs. simpl lets_. simpl fresh_node.
    split; [|simpl; congruence].
    rewrite <- app_assoc. simpl. f_equal. f_equal.
    destruct (anonymous c); lia.
Qed.

Lemma push_all_lookup cs : ∀ s vs s',
  open s → push_all cs s = Ok vs s' →
  ∀ k c, cs !! k = Some c →
  ∃ v, vs !! k = Some v
       ∧ (anonymous c = true →
          node v = allocations (take k cs) + fresh_node s
          ∧ name_hint v = var_name "x" (node v))
       ∧ (∀ pv e, c = ByVar pv e → v = pv).
Proof.
  induction cs as [|c0 cs IH]; intros s vs s' Hs Hrun k c Hk.
  - rewrite lookup_nil in Hk. discriminate.
  - destruct (push_open c0 s Hs) as (v0 & Hv0 & Hanon & Hvar).
    simpl push_all in Hrun. unfold bind, ret in Hrun. rewrite Hv0 in Hrun.
    match type of Hrun with context [push_all cs ?s1] =>
      destruct (push_all cs s1) as [vs1 s2|err s2] eqn:Hrest; [|discriminate];
      specialize (IH s1 vs1 s2 eq_refl Hrest) end.
    injection Hrun as <- <-.
    destruct k as [|k]; simpl in Hk.
    + injection Hk as <-. exists v0. simpl. auto.
    + destruct (IH k c Hk) as (v & Hv & Ha & Hb).
      exists v. simpl. split; [exact Hv|]. split; [|exact Hb].
      intros Hc. destruct (Ha Hc) as [Hn Hx]. split; [|exact Hx].
      rewrite Hn. simpl. lia.
Qed.

Lemma allocations_take_le cs i j :
  i ≤ j → allocations (take i cs) ≤ allocations (take j cs).
Proof.
  revert i j. induction cs as [|c cs IH]; intros i j Hij.
  - rewrite !take_nil. reflexivity.
  - destruct i as [|i]; [simpl; lia|].
    destruct j as [|j]; [lia|]. simpl.
    specialize (IH i j ltac:(lia)). lia.
Qed.

(** ** Histories *)

Lemma last_change_default (a b c : LetList) h :
  List.last (b :: h) a = List.last (b :: h) c.
Proof.
  revert b. induction h as [|d h IH]; intros b; [reflexivity|].
  change (List.last (d :: h) a = List.last (d :: h) c). apply IH.
Qed.

Lemma last_cons (a b : LetList) h : List.last (b :: h) a = List.last h b.
Proof.
  destruct h as [|d h]; [reflexivity|].
  change (List.last (d :: h) a = List.last (d :: h) b).
  apply last_change_default.
Qed.

Lemma monotone_last a h :
  monotone a h → used_ a = true → used_ (List.last h a) = true.
Proof.
  revert a. induction h as [|b h IH]; intros a Hm Ha.
  - exact Ha.
  - destruct Hm as [Hab Hm]. rewrite last_cons. exact (IH b Hm (Hab Ha)).
Qed.

Lemma closings_monotone a h :
  monotone a h →
  closings (a :: h) = if negb (used_ a) && used_ (List.last h a) then 1 else 0.
Proof.
  revert a. induction h as [|b h IH]; intros a Hm.
  - simpl. destruct (used_ a); reflexivity.
  - destruct Hm as [Hab Hm].
    change (closings (a :: b :: h))
      with ((if negb (used_ a) && used_ b then 1 else 0) + closings (b :: h)).
    rewrite (IH b Hm).
    rewrite last_cons.
    pose proof (monotone_last b h Hm) as Hlast.
    destruct (used_ a) eqn:Ha; simpl.
    + rewrite (Hab eq_refl). reflexivity.
    + destruct (used_ b) eqn:Hb; simpl.
      * rewrite (Hlast eq_refl). reflexivity.
      * reflexivity.
Qed.

Lemma monotone_app a h1 h2 :
  monotone a h1 → monotone (List.last h1 a) h2 → monotone a (h1 ++ h2).
Proof.
  revert a. induction h1 as [|b h1 IH]; intros a H1 H2.
  - exact H2.
  - destruct H1 as [Hab H1]. rewrite last_cons in H2.
    split; [exact Hab | exact (IH b H1 H2)].
Qed.

Lemma last_app_cons (a c : LetList) h1 h2 :
  List.last (h1 ++ c :: h2) a = List.last h2 c.
Proof.
  revert a. induction h1 as [|b h1 IH]; intros a.
  - apply last_cons.
  - change (List.last (b :: (h1 ++ c :: h2)) a = List.last h2 c).
    rewrite last_cons. apply IH.
Qed.

(** No method re-opens a closed builder. *)
Lemma Push_Var_stays_closed pv e s :
  closed s → closed (state_of (Push_Var pv e s)).
Proof. intros Hs. rewrite Push_Var_closed by exact Hs. exact Hs. Qed.

Lemma Push_Type_stays_closed ty e s :
  closed s → closed (state_of (Push_Type ty e s)).
Proof. intros Hs. rewrite Push_Type_closed by exact Hs. exact Hs. Qed.

Lemma Get_closes body s : closed (state_of (Get body s)).
Proof.
  destruct (open_or_closed s) as [Hs|Hs].
  - rewrite Get_open by exact Hs. reflexivity.
  - rewrite Get_closed by exact Hs. exact Hs.
Qed.

Lemma after_call_history {A B} (m : M A) (k : A → Client B) s h r :
  (closed s → closed (state_of (m s))) →
  (∀ a s1 h1 r1, exec (k a) s1 = (h1, r1) →
     monotone (this s1) h1 ∧ List.last h1 (this s1) = this (state_of r1)) →
  after_call (m s) (fun a => exec (k a)) = (h, r) →
  monotone (this s) h ∧ List.last h (this s) = this (state_of r).
Proof.
  intros Hm IH Hrun. unfold after_call in Hrun.
  destruct (m s) as [a s1|err s1]; simpl in Hm.
  - destruct (exec (k a) s1) as [h1 r1] eqn:Hk.
    injection Hrun as <- <-.
    destruct (IH a s1 h1 r1 Hk) as [Hmono Hlast].
    split; [split; [exact Hm | exact Hmono]|].
    rewrite <- Hlast. apply last_cons.
  - injection Hrun as <- <-. simpl. split; [split; [exact Hm | exact I] | reflexivity].
Qed.

Lemma exec_history {A} (p : Client A) : ∀ s h r,
  exec p s = (h, r) →
  monotone (this s) h ∧ List.last h (this s) = this (state_of r).
Proof.
  induction p as [a|what|name ty k IH|pv e k IH|ty e k IH|e k IH|body k IH];
    intros s h r Hrun; simpl in Hrun.
  - injection Hrun as <- <-. split; [exact I | reflexivity].
  - injection Hrun as <- <-. split; [exact I | reflexivity].
  - exact (IH _ _ _ _ Hrun).
  - eapply (after_call_history (Push_Var pv e)); [apply Push_Var_stays_closed| |exact Hrun].
    intros a s1 h1 r1. apply IH.
  - eapply (after_call_history (Push_Type ty e)); [apply Push_Type_stays_closed| |exact Hrun].
    intros a s1 h1 r1. apply IH.
  - eapply (after_call_history (Push e)); [apply Push_Type_stays_closed| |exact Hrun].
    intros a s1 h1 r1. apply IH.
  - eapply (after_call_history (Get body)); [intros _; apply Get_closes| |exact Hrun].
    intros a s1 h1 r1. apply IH.
Qed.

(** For a client, the traced history is [With_history]. *)
Lemma With_history_is_With_traced (p : Client Expr) fresh :
  With_history p fresh = With_traced (exec p) fresh.
Proof. reflexivity. Qed.

(** [With] is the sequence the specification describes, for any callable. *)
Lemma With_is_With_spec (f : M Expr) fresh : With f fresh = With_spec f fresh.
Proof. reflexivity. Qed.

Lemma allocations_take_S cs k c :
  cs !! k = Some c →
  allocations (take (S k) cs) = (if anonymous c then 1 else 0) + allocations (take k cs).
Proof.
  revert k. induction cs as [|c0 cs IH]; intros k Hk.
  - rewrite lookup_nil in Hk. discriminate.
  - destruct k as [|k]; simpl in Hk.
    + injection Hk as ->. simpl. lia.
    + specialize (IH k Hk). simpl in IH. simpl. lia.
Qed.

(** Two anonymous pushes of one run return different nodes. *)
Lemma anonymous_nodes_differ cs s vs s' i j ci cj vi vj :
  open s → push_all cs s = Ok vs s' →
  i < j →
  cs !! i = Some ci → cs !! j = Some cj →
  anonymous ci = true → anonymous cj = true →
  vs !! i = Some vi → vs !! j = Some vj →
  node vi < node vj.
Proof.
  intros Hs Hrun Hij Hci Hcj Hai Haj Hvi Hvj.
  destruct (push_all_lookup cs s vs s' Hs Hrun i ci Hci) as (vi' & Hvi' & Hni & _).
  destruct (push_all_lookup cs s vs s' Hs Hrun j cj Hcj) as (vj' & Hvj' & Hnj & _).
  rewrite Hvi in Hvi'. injection Hvi' as <-.
  rewrite Hvj in Hvj'. injection Hvj' as <-.
  destruct (Hni Hai) as [-> _]. destruct (Hnj Haj) as [-> _].
  pose proof (allocations_take_S cs i ci Hci) as HS. rewrite Hai in HS.
  pose proof (allocations_take_le cs (S i) j ltac:(lia)). lia.
Qed.

Lemma Get_Ok_closed body s r s' : Get body s = Ok r s' → closed s'.
Proof.
  intros HG. pose proof (Get_closes body s) as Hc. rewrite HG in Hc. exact Hc.
Qed.

Lemma push_closed c s :
  closed s → ∃ s', push c s = Fatal (CheckFailed "!used_") s' ∧ this s' = this s.
Proof.
  intros Hs. destruct c as [pv e|ty e|e]; simpl.
  - exists s. split; [apply Push_Var_closed; exact Hs | reflexivity].
  - exists (allocated s). split; [apply Push_Type_closed; exact Hs | reflexivity].
  - exists (allocated s). split; [apply Push_Type_closed; exact Hs | reflexivity].
Qed.

(** ** The claims *)

(** C1. On a builder on which N bindings were pushed in order (by any of
    the overloads) and which is still open, [Get(body)] returns exactly N
    nested lets around [body]: the binding pushed K-th is the K-th let
    from the outside, it binds the variable that push returned (the given
    one for an explicit push) to the pushed expression, and under the N
    lets sits [body]. *)
Theorem Get_nests_bindings_in_push_order (fresh : nat) (cs : list PushCall) (body : Expr) :
  ∃ vs s,
    push_all cs {| fresh_node := fresh; this := LetList_new |} = Ok vs s
    ∧ length vs = length cs
    ∧ (∀ k pv e, cs !! k = Some (ByVar pv e) → vs !! k = Some pv)
    ∧ Get body s = Ok (nested_lets (zip vs (pushed_expr <$> cs)) body) (finalized s)
    ∧ (∀ k v c, vs !! k = Some v → cs !! k = Some c →
         let_level k (nested_lets (zip vs (pushed_expr <$> cs)) body)
         = Some (v, pushed_expr c))
    ∧ under_lets (length cs) (nested_lets (zip vs (pushed_expr <$> cs)) body)
      = Some body.
Proof.
  set (s0 := {| fresh_node := fresh; this := LetList_new |}).
  assert (Hs0 : open s0) by reflexivity.
  destruct (push_all_open cs s0 Hs0) as (vs & Hrun & Hlen).
  eexists vs, _. split; [exact Hrun|]. split; [exact Hlen|].
  split; [|split; [|split]].
  - intros k pv e Hk.
    destruct (push_all_lookup cs s0 vs _ Hs0 Hrun k _ Hk) as (v & Hv & _ & Hpv).
    rewrite (Hpv pv e eq_refl) in Hv. exact Hv.
  - rewrite Get_open by reflexivity. reflexivity.
  - intros k v c Hv Hc. apply let_level_nested.
    apply lookup_zip_with_Some. exists v, (pushed_expr c).
    split; [reflexivity|]. split; [exact Hv|].
    rewrite list_lookup_fmap, Hc. reflexivity.
  - assert (Hz : length (zip vs (pushed_expr <$> cs)) = length cs).
    { rewrite length_zip_with, length_fmap. lia. }
    rewrite <- Hz at 1. apply under_lets_nested.
Qed.

(** C3. On a builder finalized by a successful [Get], a call of any
    [Push] overload dies on [CHECK(!used_)]: the result is the fatal
    check failure, not a value; the builder at the point of death is the
    one [Get] left, with nothing appended; and nothing sequenced after
    the call runs. *)
Theorem Push_after_Get_is_fatal (s : State) (body r : Expr) (s' : State) (c : PushCall) :
  Get body s = Ok r s' →
  ∃ s'', push c s' = Fatal (CheckFailed "!used_") s''
         ∧ this s'' = this s'
         ∧ lets_ (this s'') = lets_ (this s)
         ∧ (∀ B (k : Var → M B), bind (push c) k s' = Fatal (CheckFailed "!used_") s'').
Proof.
  intros HG. pose proof (Get_Ok_closed _ _ _ _ HG) as Hc.
  destruct (push_closed c s' Hc) as (s'' & Hp & Hthis).
  exists s''. split; [exact Hp|]. split; [exact Hthis|]. split.
  - rewrite Hthis. destruct (open_or_closed s) as [Ho|Hcl].
    + rewrite Get_open in HG by exact Ho. injection HG as _ <-. reflexivity.
    + rewrite Get_closed in HG by exact Hcl. discriminate.
  - intros B k. unfold bind. rewrite Hp. reflexivity.
Qed.

(** C4. On a builder that has not been finalized the first [Get]
    succeeds, and a second [Get] on the builder it leaves dies on
    [CHECK(!used_)]. *)
Theorem second_Get_is_fatal (s : State) (body1 body2 : Expr) :
  open s →
  ∃ r s', Get body1 s = Ok r s'
          ∧ Get body2 s' = Fatal (CheckFailed "!used_") s'.
Proof.
  intros Hs. eexists _, _. split; [apply Get_open; exact Hs|].
  apply Get_closed. reflexivity.
Qed.

(** C5. [Get(body)] on a freshly created builder, with nothing pushed,
    returns [body] itself. *)
Theorem Get_without_bindings_returns_body (fresh : nat) (body : Expr) :
  Get body {| fresh_node := fresh; this := LetList_new |}
  = Ok body {| fresh_node := fresh; this := {| lets_ := []; used_ := true |} |}.
Proof. reflexivity. Qed.


(** C7. On an open builder [Push(v, e)] returns [v], appends the one
    binding [(v, e)] at the end of the sequence, which grows by one, and
    leaves every earlier binding, the flag and the allocator as they
    were. *)
Theorem Push_Var_appends_one_binding (s : State) (pv : Var) (expr : Expr) :
  open s →
  ∃ s', Push_Var pv expr s = Ok pv s'
        ∧ lets_ (this s') = lets_ (this s) ++ [(pv, expr)]
        ∧ length (lets_ (this s')) = S (length (lets_ (this s)))
        ∧ lets_ (this s') !! length (lets_ (this s)) = Some (pv, expr)
        ∧ (∀ i b, lets_ (this s) !! i = Some b → lets_ (this s') !! i = Some b)
        ∧ used_ (this s') = used_ (this s)
        ∧ fresh_node s' = fresh_node s.
Proof.
  intros Hs. exists (pushed pv expr s).
  split; [apply Push_Var_open; exact Hs|]. simpl.
  split; [reflexivity|]. split; [rewrite length_app; simpl; lia|].
  split; [apply list_lookup_middle; reflexivity|].
  split; [|split; reflexivity].
  intros i b Hi. apply lookup_app_l_Some. exact Hi.
Qed.

(** C8. The untyped [Push(e)] gives, on every builder, the result and the
    state of the typed [Push] at the null type [Type()]: on a closed
    builder the check failure, on an open one a new variable made from
    the text "x" without annotation, bound to [e] at the end of the sequence. *)
Theorem Push_is_Push_Type_at_null (expr : Expr) (s : State) :
  Push expr s = Push_Type Type_null expr s
  ∧ Push_Type Type_null expr s
    = if used_ (this s)
      then Fatal (CheckFailed "!used_") (allocated s)
      else Ok (mkVar (fresh_node s) (var_name "x" (fresh_node s)) None)
              (pushed (mkVar (fresh_node s) (var_name "x" (fresh_node s)) None)
                      expr (allocated s)).
Proof.
  split; [reflexivity|].
  destruct (used_ (this s)) eqn:Hu.
  - apply Push_Type_closed. exact Hu.
  - apply Push_Type_open. exact Hu.
Qed.


(** C10. [Get] on a builder with nothing pushed returns the body and
    leaves the builder closed: after it every [Push] overload and [Get]
    die on [CHECK(!used_)]. *)
Theorem Get_on_empty_builder_closes (fresh : nat) (body : Expr) :
  ∃ s', Get body {| fresh_node := fresh; this := LetList_new |} = Ok body s'
        ∧ used_ (this s') = true
        ∧ (∀ c, ∃ s'', push c s' = Fatal (CheckFailed "!used_") s''
                       ∧ this s'' = this s')
        ∧ (∀ body2, Get body2 s' = Fatal (CheckFailed "!used_") s').
Proof.
  exists {| fresh_node := fresh; this := {| lets_ := []; used_ := true |} |}.
  split; [reflexivity|]. split; [reflexivity|]. split.
  - intros c. apply push_closed. reflexivity.
  - intros body2. apply Get_closed. reflexivity.
Qed.

(** ** Further properties of the methods and of their callers *)

Ltac by_flag s :=
  destruct (open_or_closed s) as [?Ho|?Hc];
  [ rewrite ?Push_Var_open, ?Push_Type_open, ?Get_open by assumption
  | rewrite ?Push_Var_closed, ?Push_Type_closed, ?Get_closed by assumption ].

(** A closed builder is inert: whatever a client does with it, its
    fields stay as they are, and the first method the client calls on it
    is the last thing the client does. *)
Theorem closed_builder_is_inert {A} (p : Client A) (s : State) :
  closed s →
  Forall (fun b => b = this s) (fst (exec p s))
  ∧ this (state_of (run p s)) = this s
  ∧ length (fst (exec p s)) ≤ 1.
Proof.
  unfold run. revert s.
  induction p as [a|what|name ty k IH|pv e k IH|ty e k IH|e k IH|body k IH];
    intros s Hs; simpl.
  - split; [constructor | split; [reflexivity | lia]].
  - split; [constructor | split; [reflexivity | lia]].
  - apply (IH _ (allocated s)). exact Hs.
  - rewrite Push_Var_closed by exact Hs. simpl.
    split; [repeat constructor | split; [reflexivity | lia]].
  - rewrite Push_Type_closed by exact Hs. simpl.
    split; [repeat constructor | split; [reflexivity | lia]].
  - unfold Push. rewrite Push_Type_closed by exact Hs. simpl.
    split; [repeat constructor | split; [reflexivity | lia]].
  - rewrite Get_closed by exact Hs. simpl.
    split; [repeat constructor | split; [reflexivity | lia]].
Qed.

(** What one method call does to the builder and the allocator, and how
    it can die. *)
Lemma Push_Var_step pv e s :
  lets_ (this s) `prefix_of` lets_ (this (state_of (Push_Var pv e s)))
  ∧ fresh_node s ≤ fresh_node (state_of (Push_Var pv e s))
  ∧ (∀ err s1, Push_Var pv e s = Fatal err s1 →
       err = CheckFailed "!used_" ∧ closed s1).
Proof.
  by_flag s; simpl.
  - split; [apply prefix_app_r; reflexivity|]. split; [lia | discriminate].
  - split; [reflexivity|]. split; [lia|].
    intros err s1 [= <- <-]. split; [reflexivity | assumption].
Qed.

Lemma Push_Type_step ty e s :
  lets_ (this s) `prefix_of` lets_ (this (state_of (Push_Type ty e s)))
  ∧ fresh_node s ≤ fresh_node (state_of (Push_Type ty e s))
  ∧ (∀ err s1, Push_Type ty e s = Fatal err s1 →
       err = CheckFailed "!used_" ∧ closed s1).
Proof.
  by_flag s; simpl.
  - split; [apply prefix_app_r; reflexivity|]. split; [lia | discriminate].
  - split; [reflexivity|]. split; [lia|].
    intros err s1 [= <- <-]. split; [reflexivity | assumption].
Qed.

Lemma Get_step body s :
  lets_ (this s) `prefix_of` lets_ (this (state_of (Get body s)))
  ∧ fresh_node s ≤ fresh_node (state_of (Get body s))
  ∧ (∀ err s1, Get body s = Fatal err s1 →
       err = CheckFailed "!used_" ∧ closed s1).
Proof.
  by_flag s; simpl.
  - split; [reflexivity|]. split; [lia | discriminate].
  - split; [reflexivity|]. split; [lia|].
    intros err s1 [= <- <-]. split; [reflexivity | assumption].
Qed.

Lemma after_call_extends {A B} (m : M A) (k : A → Client B) s :
  lets_ (this s) `prefix_of` lets_ (this (state_of (m s))) →
  fresh_node s ≤ fresh_node (state_of (m s)) →
  (∀ a s1,
     extends_along (this s1) (fst (exec (k a) s1))
     ∧ lets_ (this s1) `prefix_of` lets_ (this (state_of (snd (exec (k a) s1))))
     ∧ fresh_node s1 ≤ fresh_node (state_of (snd (exec (k a) s1)))) →
  extends_along (this s) (fst (after_call (m s) (fun a => exec (k a))))
  ∧ lets_ (this s)
      `prefix_of` lets_ (this (state_of (snd (after_call (m s) (fun a => exec (k a))))))
  ∧ fresh_node s ≤ fresh_node (state_of (snd (after_call (m s) (fun a => exec (k a))))).
Proof.
  intros Hpre Hfresh IH. unfold after_call.
  destruct (m s) as [a s1|err s1]; simpl in *.
  - specialize (IH a s1). destruct (exec (k a) s1) as [h1 r1]. simpl in *.
    destruct IH as (Hext & Hpre1 & Hfresh1).
    split; [split; assumption|]. split; [etrans; eassumption | lia].
  - split; [split; [assumption | exact I]|]. split; assumption.
Qed.

(** The sequence is append-only: along every run of a client each
    method call leaves the bindings it found in place, at their
    positions, so the builder the client ends with extends the one it
    started with; and the allocator never goes back. *)
Theorem builder_only_grows {A} (p : Client A) (s : State) :
  extends_along (this s) (fst (exec p s))
  ∧ lets_ (this s) `prefix_of` lets_ (this (state_of (run p s)))
  ∧ fresh_node s ≤ fresh_node (state_of (run p s)).
Proof.
  unfold run. revert s.
  induction p as [a|what|name ty k IH|pv e k IH|ty e k IH|e k IH|body k IH];
    intros s; simpl.
  - split; [exact I | split; [reflexivity | lia]].
  - split; [exact I | split; [reflexivity | lia]].
  - destruct (IH {| node := fresh_node s;
                    name_hint := var_name name (fresh_node s);
                    type_annotation := ty |}
                 (allocated s)) as (H1 & H2 & H3).
    split; [exact H1 | split; [exact H2|]].
    apply Nat.le_trans with (fresh_node (allocated s)); [simpl; lia | exact H3].
  - destruct (Push_Var_step pv e s) as (H1 & H2 & _).
    apply after_call_extends; [exact H1 | exact H2 | intros a s1; apply IH].
  - destruct (Push_Type_step ty e s) as (H1 & H2 & _).
    apply after_call_extends; [exact H1 | exact H2 | intros a s1; apply IH].
  - destruct (Push_Type_step Type_null e s) as (H1 & H2 & _).
    apply (after_call_extends (Push e)); [exact H1 | exact H2 | intros a s1; apply IH].
  - destruct (Get_step body s) as (H1 & H2 & _).
    apply after_call_extends; [exact H1 | exact H2 | intros a s1; apply IH].
Qed.

Lemma after_call_check {A B} (m : M A) (k : A → Client B) s t s' :
  (∀ err s1, m s = Fatal err s1 → err = CheckFailed "!used_" ∧ closed s1) →
  (∀ a s1, snd (exec (k a) s1) = Fatal (CheckFailed t) s' →
     t = "!used_" ∧ closed s') →
  snd (after_call (m s) (fun a => exec (k a))) = Fatal (CheckFailed t) s' →
  t = "!used_" ∧ closed s'.
Proof.
  intros Hm IH Hrun. unfold after_call in Hrun.
  destruct (m s) as [a s1|err s1].
  - specialize (IH a s1). destruct (exec (k a) s1) as [h1 r1]. simpl in *.
    apply IH. exact Hrun.
  - simpl in Hrun. injection Hrun as -> ->.
    destruct (Hm _ _ eq_refl) as [Ht Hc]. injection Ht as ->. split; [reflexivity | exact Hc].
Qed.

(** The only check that can fail is [CHECK(!used_)], and it fails on a
    closed builder only: a client that dies on a check dies on this one,
    holding a builder that [Get] has closed. *)
Theorem check_fails_on_closed_builder_only {A} (p : Client A) (s : State) t s' :
  run p s = Fatal (CheckFailed t) s' → t = "!used_" ∧ closed s'.
Proof.
  unfold run. revert s t s'.
  induction p as [a|what|name ty k IH|pv e k IH|ty e k IH|e k IH|body k IH];
    intros s t s' Hrun; simpl in Hrun.
  - discriminate.
  - discriminate.
  - exact (IH _ _ _ _ Hrun).
  - eapply (after_call_check (Push_Var pv e)); [apply Push_Var_step | | exact Hrun].
    intros a s1. apply IH.
  - eapply (after_call_check (Push_Type ty e)); [apply Push_Type_step | | exact Hrun].
    intros a s1. apply IH.
  - eapply (after_call_check (Push e)); [apply (Push_Type_step Type_null) | | exact Hrun].
    intros a s1. apply IH.
  - eapply (after_call_check (Get body)); [apply Get_step | | exact Hrun].
    intros a s1. apply IH.
Qed.

(** What a client without [Get] does depends on the allocator only: it
    appends the same bindings to whatever the open builder holds, and
    ends with the same value or the same failure of its own. *)
Lemma run_Get_free {A} (p : Client A) :
  Get_free p →
  ∀ fresh, ∃ (d : list (Var * Expr)) (fresh' : nat) (o : A + string),
    ∀ l, run p {| fresh_node := fresh; this := {| lets_ := l; used_ := false |} |}
         = match o with
           | inl a => Ok a {| fresh_node := fresh';
                              this := {| lets_ := l ++ d; used_ := false |} |}
           | inr w => Fatal (Thrown w)
                            {| fresh_node := fresh';
                               this := {| lets_ := l ++ d; used_ := false |} |}
           end.
Proof.
  unfold run.
  induction p as [a|what|name ty k IH|pv e k IH|ty e k IH|e k IH|body k IH];
    intros Hfree fresh; simpl in Hfree.
  - exists [], fresh, (inl a). intros l. simpl. rewrite app_nil_r. reflexivity.
  - exists [], fresh, (inr what). intros l. simpl. rewrite app_nil_r. reflexivity.
  - destruct (IH (mkVar fresh (var_name name fresh) ty) (Hfree _) (S fresh))
      as (d & fresh' & o & Hk).
    exists d, fresh', o. intros l. simpl. apply Hk.
  - destruct (IH pv (Hfree pv) fresh) as (d & fresh' & o & Hk).
    exists ((pv, e) :: d), fresh', o. intros l. cbn [exec].
    rewrite Push_Var_open by reflexivity. unfold after_call, pushed. simpl.
    specialize (Hk (l ++ [(pv, e)])).
    destruct (exec (k pv) _) as [h1 r1]. simpl in *. rewrite Hk.
    rewrite <- app_assoc. reflexivity.
  - destruct (IH (mkVar fresh (var_name "x" fresh) ty) (Hfree _) (S fresh)) as (d & fresh' & o & Hk).
    exists ((mkVar fresh (var_name "x" fresh) ty, e) :: d), fresh', o. intros l. cbn [exec].
    rewrite Push_Type_open by reflexivity. unfold after_call, pushed, allocated. simpl.
    specialize (Hk (l ++ [(mkVar fresh (var_name "x" fresh) ty, e)])).
    destruct (exec (k _) _) as [h1 r1]. simpl in *. rewrite Hk.
    rewrite <- app_assoc. reflexivity.
  - destruct (IH (mkVar fresh (var_name "x" fresh) Type_null) (Hfree _) (S fresh)) as (d & fresh' & o & Hk).
    exists ((mkVar fresh (var_name "x" fresh) Type_null, e) :: d), fresh', o. intros l. cbn [exec].
    unfold Push. rewrite Push_Type_open by reflexivity.
    unfold after_call, pushed, allocated. simpl.
    specialize (Hk (l ++ [(mkVar fresh (var_name "x" fresh) Type_null, e)])).
    destruct (exec (k _) _) as [h1 r1]. simpl in *. rewrite Hk.
    rewrite <- app_assoc. reflexivity.
  - contradiction.
Qed.

Lemma snd_after_call {A B} (r : Result A) (k : A → State → list LetList * Result B) :
  snd (after_call r k)
  = match r with
    | Ok a s1 => snd (k a s1)
    | Fatal err s1 => Fatal err s1
    end.
Proof.
  unfold after_call. destruct r as [a s1|err s1]; [|reflexivity].
  destruct (k a s1). reflexivity.
Qed.

Lemma run_then {A B} (p : Client A) (k : A → Client B) : ∀ s,
  run (then_ p k) s = bind (run p) (fun a => run (k a)) s.
Proof.
  unfold run, bind.
  induction p as [a|what|name ty k' IH|pv e k' IH|ty e k' IH|e k' IH|body k' IH];
    intros s; cbn [then_ exec snd]; try reflexivity.
  - apply IH.
  - rewrite !snd_after_call. destruct (Push_Var pv e s); [apply IH | reflexivity].
  - rewrite !snd_after_call. destruct (Push_Type ty e s); [apply IH | reflexivity].
  - rewrite !snd_after_call. destruct (Push e s); [apply IH | reflexivity].
  - rewrite !snd_after_call. destruct (Get body s); [apply IH | reflexivity].
Qed.

Lemma nested_lets_app (l1 l2 : list (Var * Expr)) body :
  nested_lets (l1 ++ l2) body = nested_lets l1 (nested_lets l2 body).
Proof.
  induction l1 as [|[v e] l1 IH]; simpl; [reflexivity | rewrite IH; reflexivity].
Qed.




(** [With] dies on a callable that has closed the builder itself: when
    the callable returns with the builder closed, the [Get] of [With] is
    a second [Get] and fails the check. *)
Theorem With_dies_when_callable_closed_the_builder (f : Client Expr) (fresh : nat)
    (body : Expr) (s : State) :
  run f {| fresh_node := fresh; this := LetList_new |} = Ok body s →
  closed s →
  With (run f) fresh = Fatal (CheckFailed "!used_") s.
Proof.
  intros Hrun Hs. unfold With, bind. rewrite Hrun. apply Get_closed. exact Hs.
Qed.

(** [Get] splits at any point of the sequence: with the bindings
    [l1 ++ l2] it returns what [Get] with [l1] returns for the body that
    [Get] with [l2] returned. *)
Theorem Get_splits_at_append (fresh : nat) (l1 l2 : list (Var * Expr)) (body : Expr) :
  ∃ inner outer,
    Get body {| fresh_node := fresh; this := {| lets_ := l2; used_ := false |} |}
    = Ok inner {| fresh_node := fresh; this := {| lets_ := l2; used_ := true |} |}
    ∧ Get inner {| fresh_node := fresh; this := {| lets_ := l1; used_ := false |} |}
      = Ok outer {| fresh_node := fresh; this := {| lets_ := l1; used_ := true |} |}
    ∧ Get body {| fresh_node := fresh; this := {| lets_ := l1 ++ l2; used_ := false |} |}
      = Ok outer {| fresh_node := fresh;
                    this := {| lets_ := l1 ++ l2; used_ := true |} |}.
Proof.
  exists (nested_lets l2 body), (nested_lets l1 (nested_lets l2 body)).
  rewrite !Get_open by reflexivity. unfold finalized. simpl.
  rewrite nested_lets_app. repeat split; reflexivity.
Qed.


Lemma distinct_binders_allocated lo s :
  distinct_binders lo s → distinct_binders lo (allocated s).
Proof.
  intros (Hlo & Hnd & Hall). split; [simpl; lia|]. split; [exact Hnd|].
  unfold bound_nodes in *. simpl.
  eapply Forall_impl; [exact Hall|]. simpl. intros n Hn. lia.
Qed.

Lemma distinct_binders_Push_Type lo ty e s :
  distinct_binders lo s → distinct_binders lo (state_of (Push_Type ty e s)).
Proof.
  intros Hs. by_flag s; simpl; [|apply distinct_binders_allocated; exact Hs].
  destruct Hs as (Hlo & Hnd & Hall).
  split; [simpl; lia|]. unfold bound_nodes in *. simpl. rewrite fmap_app. simpl.
  split.
  - apply NoDup_app. split; [exact Hnd|]. split; [|apply NoDup_singleton].
    intros n Hn Hin. apply list_elem_of_singleton in Hin. subst n.
    rewrite Forall_forall in Hall. specialize (Hall _ Hn). simpl in Hall. lia.
  - apply Forall_app. split.
    + eapply Forall_impl; [exact Hall|]. simpl. intros n Hn. lia.
    + constructor; [lia | constructor].
Qed.

Lemma distinct_binders_Get lo body s :
  distinct_binders lo s → distinct_binders lo (state_of (Get body s)).
Proof. intros Hs. by_flag s; exact Hs. Qed.

Lemma after_call_state {A B} (m : M A) (k : A → Client B) (P : State → Prop) s :
  P (state_of (m s)) →
  (∀ a s1, P s1 → P (state_of (snd (exec (k a) s1)))) →
  P (state_of (snd (after_call (m s) (fun a => exec (k a))))).
Proof.
  intros Hm IH. rewrite snd_after_call.
  destruct (m s) as [a s1|err s1]; simpl in *; [apply IH|]; exact Hm.
Qed.

(** A client that leaves the making of variables to the builder keeps
    the binders apart: if the builder binds no node twice and only nodes
    made since some allocator position, it still does when the client is
    done. *)
Theorem anonymous_only_client_keeps_binders_distinct {A} (p : Client A)
    (lo : nat) (s : State) :
  anonymous_only p → distinct_binders lo s →
  distinct_binders lo (state_of (run p s)).
Proof.
  unfold run. revert s.
  induction p as [a|what|name ty k IH|pv e k IH|ty e k IH|e k IH|body k IH];
    intros s Hp Hs; simpl in Hp.
  - exact Hs.
  - exact Hs.
  - apply (IH _ (allocated s) (Hp _)). apply distinct_binders_allocated. exact Hs.
  - contradiction.
  - cbn [exec]. apply (after_call_state (Push_Type ty e) k (distinct_binders lo)).
    + apply distinct_binders_Push_Type. exact Hs.
    + intros a s1 Hs1. apply (IH a s1 (Hp a) Hs1).
  - cbn [exec]. apply (after_call_state (Push e) k (distinct_binders lo)).
    + apply (distinct_binders_Push_Type lo Type_null). exact Hs.
    + intros a s1 Hs1. apply (IH a s1 (Hp a) Hs1).
  - cbn [exec]. apply (after_call_state (Get body) k (distinct_binders lo)).
    + apply distinct_binders_Get. exact Hs.
    + intros a s1 Hs1. apply (IH a s1 (Hp a) Hs1).
Qed.

(** With a variable of the caller the binders stay apart exactly when
    the variable is not bound already: the builder does not look. *)
Theorem Push_Var_keeps_binders_distinct_iff (s : State) (pv : Var) (expr : Expr) :
  open s → NoDup (bound_nodes s) →
  (NoDup (bound_nodes (state_of (Push_Var pv expr s))) ↔ node pv ∉ bound_nodes s).
Proof.
  intros Hs Hnd. rewrite Push_Var_open by exact Hs.
  unfold bound_nodes. simpl. rewrite fmap_app. simpl.
  rewrite NoDup_app. split.
  - intros (_ & Hdisj & _) Hin. apply (Hdisj _ Hin). apply list_elem_of_singleton. reflexivity.
  - intros Hnin. split; [exact Hnd|]. split; [|apply NoDup_singleton].
    intros n Hn Hin. apply list_elem_of_singleton in Hin. subst n. contradiction.
Qed.

Lemma mult_sixteen_is_doubling a : mult_sixteen_body a = doubling 3 a.
Proof. reflexivity. Qed.

Lemma run_doubling n : ∀ x fresh l,
  run (doubling n x) {| fresh_node := fresh; this := {| lets_ := l; used_ := false |} |}
  = Ok (add (EVar (doubling_last n x fresh)) (EVar (doubling_last n x fresh)))
       {| fresh_node := n + fresh;
          this := {| lets_ := l ++ doubling_lets n x fresh; used_ := false |} |}.
Proof.
  unfold run. induction n as [|n IH]; intros x fresh l.
  - simpl. rewrite app_nil_r. reflexivity.
  - cbn [doubling exec]. rewrite snd_after_call.
    unfold Push. rewrite Push_Type_open by reflexivity.
    unfold pushed, allocated. simpl fresh_node. simpl this. simpl lets_. simpl used_.
    rewrite IH. simpl doubling_last. simpl doubling_lets.
    rewrite <- app_assoc. simpl. do 2 f_equal. lia.
Qed.

Lemma With_doubling n x fresh :
  With (run (doubling n x)) fresh
  = Ok (nested_lets (doubling_lets n x fresh)
          (add (EVar (doubling_last n x fresh)) (EVar (doubling_last n x fresh))))
       {| fresh_node := n + fresh;
          this := {| lets_ := doubling_lets n x fresh; used_ := true |} |}.
Proof.
  unfold With, bind, LetList_new. rewrite run_doubling. simpl app.
  rewrite Get_open by reflexivity. reflexivity.
Qed.

Lemma subst_inlined y t n : ∀ e,
  subst y t (inlined n e) = inlined n (subst y t e).
Proof.
  induction n as [|n IH]; intros e; simpl; [reflexivity|].
  rewrite IH. reflexivity.
Qed.

Lemma expand_doubling n : ∀ x fresh,
  expand (nested_lets (doubling_lets n x fresh)
            (add (EVar (doubling_last n x fresh)) (EVar (doubling_last n x fresh))))
  = inlined n (EVar x).
Proof.
  induction n as [|n IH]; intros x fresh.
  - reflexivity.
  - cbn [doubling_lets doubling_last nested_lets expand].
    rewrite IH. rewrite subst_inlined. simpl. rewrite Nat.eqb_refl. reflexivity.
Qed.

Lemma calls_doubling n : ∀ x fresh,
  calls (nested_lets (doubling_lets n x fresh)
           (add (EVar (doubling_last n x fresh)) (EVar (doubling_last n x fresh))))
  = n + 1.
Proof.
  induction n as [|n IH]; intros x fresh.
  - reflexivity.
  - cbn [doubling_lets doubling_last nested_lets calls].
    rewrite IH. simpl. lia.
Qed.

Lemma calls_inlined n : ∀ e, calls (inlined n e) + 1 = 2 ^ (S n) * (calls e + 1).
Proof.
  induction n as [|n IH]; intros e.
  - simpl. lia.
  - cbn [inlined]. rewrite IH. rewrite (Nat.pow_succ_r' 2 (S n)).
    assert (Hadd : calls (add e e) + 1 = 2 * (calls e + 1)) by (simpl; lia).
    rewrite Hadd. lia.
Qed.

Lemma occurrences_inlined y n : ∀ e,
  occurrences y (inlined n e) = 2 ^ (S n) * occurrences y e.
Proof.
  induction n as [|n IH]; intros e.
  - simpl. lia.
  - cbn [inlined]. rewrite IH. rewrite (Nat.pow_succ_r' 2 (S n)).
    assert (Hadd : occurrences y (add e e) = 2 * occurrences y e) by (simpl; lia).
    rewrite Hadd. lia.
Qed.

Lemma occurrences_doubling y n : ∀ x fresh,
  y < fresh →
  occurrences y (nested_lets (doubling_lets n x fresh)
                   (add (EVar (doubling_last n x fresh)) (EVar (doubling_last n x fresh))))
  = if node x =? y then 2 else 0.
Proof.
  induction n as [|n IH]; intros x fresh Hy.
  - simpl. destruct (node x =? y); reflexivity.
  - cbn [doubling_lets doubling_last nested_lets occurrences].
    rewrite IH by lia. simpl.
    assert (Hne : (fresh =? y) = false) by (apply Nat.eqb_neq; lia).
    rewrite Hne. destruct (node x =? y); reflexivity.
Qed.

(** The header's example at any length.  [With] on the callable that
    doubles [n] times returns an expression with [n + 1] calls of plus
    which, its lets expanded, is the expression written without the
    builder, and that one has [2^(n+1) - 1] calls: 4 against 15 for
    [mult_sixteen]. *)
Theorem With_doubling_shares_the_sums (n : nat) (a : Var) (fresh : nat) :
  ∃ e s,
    With (run (doubling n a)) fresh = Ok e s
    ∧ length (lets_ (this s)) = n
    ∧ fresh_node s = n + fresh
    ∧ expand e = inlined n (EVar a)
    ∧ calls e = n + 1
    ∧ calls (expand e) + 1 = 2 ^ (n + 1).
Proof.
  eexists _, _. split; [apply With_doubling|]. simpl.
  split.
  { clear. revert a fresh. induction n as [|n IH]; intros a fresh; simpl;
      [reflexivity | rewrite IH; reflexivity]. }
  split; [reflexivity|]. split; [apply expand_doubling|].
  split; [apply calls_doubling|].
  rewrite expand_doubling, calls_inlined. simpl calls.
  replace (n + 1) with (S n) by lia. lia.
Qed.

(** The header's count of references.  When the variable [a] exists
    before [With] is called, the expression [With] returns for [n]
    doublings refers to [a] twice, and the expression written without
    the builder [2^(n+1)] times: 2 against 8 for ['d = c + c']. *)
Theorem With_doubling_refers_to_a_twice (n : nat) (a : Var) (fresh : nat) :
  node a < fresh →
  ∃ e s,
    With (run (doubling n a)) fresh = Ok e s
    ∧ occurrences (node a) e = 2
    ∧ occurrences (node a) (expand e) = 2 ^ (n + 1).
Proof.
  intros Ha. eexists _, _. split; [apply With_doubling|].
  split.
  - rewrite occurrences_doubling by exact Ha. rewrite Nat.eqb_refl. reflexivity.
  - rewrite expand_doubling, occurrences_inlined. simpl occurrences.
    rewrite Nat.eqb_refl. replace (n + 1) with (S n) by lia. lia.
Qed.

(** ** The variables a client's pushes return *)

Lemma push_log_cons (F F' : nat) (b0 : bool) (v0 : Var) (log : list (bool * Var)) :
  F ≤ F' → node v0 < F' →
  (b0 = true → F ≤ node v0 ∧ name_hint v0 = var_name "x" (node v0)) →
  (∀ k v, log !! k = Some (true, v) →
     F' ≤ node v ∧ name_hint v = var_name "x" (node v)) →
  (∀ i j b vi vj, i < j → log !! i = Some (b, vi) → log !! j = Some (true, vj) →
     node vi < node vj) →
  (∀ k v, ((b0, v0) :: log) !! k = Some (true, v) →
     F ≤ node v ∧ name_hint v = var_name "x" (node v))
  ∧ (∀ i j b vi vj, i < j →
       ((b0, v0) :: log) !! i = Some (b, vi) →
       ((b0, v0) :: log) !! j = Some (true, vj) →
       node vi < node vj).
Proof.
  intros HF Hv0 Hb0 IHa IHb. split.
  - intros k v Hk. destruct k as [|k]; simpl in Hk.
    + injection Hk as -> ->. apply Hb0. reflexivity.
    + destruct (IHa k v Hk) as [Hn Hx]. split; [lia | exact Hx].
  - intros i j b vi vj Hij Hi Hj.
    destruct j as [|j]; [lia|]. simpl in Hj.
    destruct i as [|i]; simpl in Hi.
    + injection Hi as -> ->. destruct (IHa j vj Hj) as [Hn _]. lia.
    + apply (IHb i j b vi vj); [lia | exact Hi | exact Hj].
Qed.

Lemma push_log_nil (F : nat) :
  (∀ k v, (@nil (bool * Var)) !! k = Some (true, v) →
     F ≤ node v ∧ name_hint v = var_name "x" (node v))
  ∧ (∀ i j b vi vj, i < j →
       (@nil (bool * Var)) !! i = Some (b, vi) →
       (@nil (bool * Var)) !! j = Some (true, vj) →
       node vi < node vj).
Proof.
  split.
  - intros k v Hk. rewrite lookup_nil in Hk. discriminate.
  - intros i j b vi vj _ Hi. rewrite lookup_nil in Hi. discriminate.
Qed.

Lemma push_log_weaken (F F' : nat) (log : list (bool * Var)) :
  F ≤ F' →
  (∀ k v, log !! k = Some (true, v) →
     F' ≤ node v ∧ name_hint v = var_name "x" (node v))
  ∧ (∀ i j b vi vj, i < j → log !! i = Some (b, vi) → log !! j = Some (true, vj) →
       node vi < node vj) →
  (∀ k v, log !! k = Some (true, v) →
     F ≤ node v ∧ name_hint v = var_name "x" (node v))
  ∧ (∀ i j b vi vj, i < j → log !! i = Some (b, vi) → log !! j = Some (true, vj) →
       node vi < node vj).
Proof.
  intros HF [Ha Hb]. split; [|exact Hb].
  intros k v Hk. destruct (Ha k v Hk) as [Hn Hx]. split; [lia | exact Hx].
Qed.

(** In the log of a client whose own variables exist when it pushes
    them, the variable of an anonymous push is a node made during the
    run, named from the text "x", and newer than every variable logged
    before it. *)
Lemma push_log_ordered {A} (p : Client A) : ∀ s,
  made_before_pushed p s →
  (∀ k v, push_log p s !! k = Some (true, v) →
     fresh_node s ≤ node v ∧ name_hint v = var_name "x" (node v))
  ∧ (∀ i j b vi vj, i < j →
       push_log p s !! i = Some (b, vi) → push_log p s !! j = Some (true, vj) →
       node vi < node vj).
Proof.
  induction p as [a|what|name ty k IH|pv e k IH|ty e k IH|e k IH|body k IH];
    intros s Hmade; cbn [push_log made_before_pushed] in *.
  - apply push_log_nil.
  - apply push_log_nil.
  - apply (push_log_weaken _ (S (fresh_node s))); [lia|].
    apply (IH _ (allocated s)). exact Hmade.
  - destruct Hmade as [Hpv Hmade]. revert Hmade. by_flag s; intros Hmade.
    + apply (push_log_cons _ (fresh_node s)); [lia | exact Hpv | discriminate | |];
        apply (IH pv (pushed pv e s) Hmade).
    + apply push_log_nil.
  - revert Hmade. by_flag s; intros Hmade.
    + apply (push_log_cons _ (S (fresh_node s)));
        [lia | simpl; lia | intros _; split; [simpl; lia | reflexivity] | |];
        apply (IH _ _ Hmade).
    + apply push_log_nil.
  - revert Hmade. unfold Push. by_flag s; intros Hmade.
    + apply (push_log_cons _ (S (fresh_node s)));
        [lia | simpl; lia | intros _; split; [simpl; lia | reflexivity] | |];
        apply (IH _ _ Hmade).
    + apply push_log_nil.
  - revert Hmade. by_flag s; intros Hmade.
    + apply (IH _ (finalized s) Hmade).
    + apply push_log_nil.
Qed.

(** The log lists the variables the builder binds: every successful
    push appended the variable it returned. *)
Lemma push_log_bound {A} (p : Client A) : ∀ s,
  fst <$> lets_ (this (state_of (run p s)))
  = (fst <$> lets_ (this s)) ++ (snd <$> push_log p s).
Proof.
  unfold run.
  induction p as [a|what|name ty k IH|pv e k IH|ty e k IH|e k IH|body k IH];
    intros s; cbn [push_log exec snd].
  - simpl. rewrite app_nil_r. reflexivity.
  - simpl. rewrite app_nil_r. reflexivity.
  - apply (IH _ (allocated s)).
  - rewrite snd_after_call. by_flag s.
    + rewrite IH. unfold pushed. simpl. rewrite fmap_app, <- app_assoc. reflexivity.
    + simpl. rewrite app_nil_r. reflexivity.
  - rewrite snd_after_call. by_flag s.
    + rewrite IH. unfold pushed, allocated. simpl.
      rewrite fmap_app, <- app_assoc. reflexivity.
    + simpl. rewrite app_nil_r. reflexivity.
  - rewrite snd_after_call. unfold Push. by_flag s.
    + rewrite IH. unfold pushed, allocated. simpl.
      rewrite fmap_app, <- app_assoc. reflexivity.
    + simpl. rewrite app_nil_r. reflexivity.
  - rewrite snd_after_call. by_flag s.
    + rewrite IH. reflexivity.
    + simpl. rewrite app_nil_r. reflexivity.
Qed.


End LetList.

(** ** The claims at concrete builders

    The type payload is instantiated with strings (type names), and the
    constructor's naming with [primed_naming], which has the
    specification's guarantee. *)

#[global] Existing Instance primed_naming.

Lemma length_primes n : String.length (primes n) = n.
Proof. induction n as [|n IH]; simpl; [reflexivity | f_equal; exact IH]. Qed.

Lemma length_append (a b : string) :
  String.length (String.append a b) = String.length a + String.length b.
Proof. induction a as [|c a IH]; simpl; [reflexivity | f_equal; exact IH]. Qed.

Lemma primed_naming_unique : @unique_names primed_naming.
Proof.
  intros hint n m Heq. unfold var_name, primed_naming in Heq.
  apply (f_equal String.length) in Heq.
  rewrite !length_append, !length_primes in Heq. lia.
Qed.



Lemma Push_after_Get_is_fatal_witness :
  Get (EOp "body")
      {| fresh_node := 1;
         this := {| lets_ := [(@mkVar string 0 "a" None, EOp "one")]; used_ := false |} |}
  = Ok (ELet (mkVar 0 "a" None) (EOp "one") (EOp "body"))
       {| fresh_node := 1;
          this := {| lets_ := [(mkVar 0 "a" None, EOp "one")]; used_ := true |} |}
  ∧ ∃ s'',
      push (ByType (Some "int32") (EOp "two"))
           {| fresh_node := 1;
              this := {| lets_ := [(@mkVar string 0 "a" None, EOp "one")];
                         used_ := true |} |}
      = Fatal (CheckFailed "!used_") s''
      ∧ this s'' = {| lets_ := [(mkVar 0 "a" None, EOp "one")]; used_ := true |}
      ∧ lets_ (this s'') = [(mkVar 0 "a" None, EOp "one")]
      ∧ (∀ B (k : Var → M B),
           bind (push (ByType (Some "int32") (EOp "two"))) k
                {| fresh_node := 1;
                   this := {| lets_ := [(@mkVar string 0 "a" None, EOp "one")];
                              used_ := true |} |}
           = Fatal (CheckFailed "!used_") s'').
Proof.
  split; [reflexivity|].
  apply (Push_after_Get_is_fatal
           {| fresh_node := 1;
              this := {| lets_ := [(@mkVar string 0 "a" None, EOp "one")];
                         used_ := false |} |}
           (EOp "body")
           (ELet (mkVar 0 "a" None) (EOp "one") (EOp "body"))).
  reflexivity.
Defined.

Lemma second_Get_is_fatal_witness :
  open {| fresh_node := 1;
          this := {| lets_ := [(@mkVar string 0 "a" None, EOp "one")]; used_ := false |} |}
  ∧ ∃ r s',
      Get (EOp "body1")
          {| fresh_node := 1;
             this := {| lets_ := [(@mkVar string 0 "a" None, EOp "one")];
                        used_ := false |} |}
      = Ok r s'
      ∧ Get (EOp "body2") s' = Fatal (CheckFailed "!used_") s'.
Proof.
  split; [reflexivity|]. apply second_Get_is_fatal. reflexivity.
Defined.



Lemma Push_Var_appends_one_binding_witness :
  open {| fresh_node := 2;
          this := {| lets_ := [(@mkVar string 0 "a" None, EOp "one")]; used_ := false |} |}
  ∧ ∃ s',
      Push_Var (mkVar 1 "b" (Some "int32")) (EOp "two")
               {| fresh_node := 2;
                  this := {| lets_ := [(@mkVar string 0 "a" None, EOp "one")];
                             used_ := false |} |}
      = Ok (mkVar 1 "b" (Some "int32")) s'
      ∧ lets_ (this s')
        = [(mkVar 0 "a" None, EOp "one"); (mkVar 1 "b" (Some "int32"), EOp "two")]
      ∧ fresh_node s' = 2.
Proof.
  split; [reflexivity|].
  destruct (Push_Var_appends_one_binding
              {| fresh_node := 2;
                 this := {| lets_ := [(@mkVar string 0 "a" None, EOp "one")];
                            used_ := false |} |}
              (mkVar 1 "b" (Some "int32")) (EOp "two") eq_refl)
    as (s' & Hret & Hlets & _ & _ & _ & _ & Hfresh).
  exists s'. split; [exact Hret|]. split; [exact Hlets | exact Hfresh].
Defined.



(** The other case of C9's theorem is not empty: with a constructor that
    keeps the text it is handed, two anonymous pushes return two nodes
    that are both named "x". *)
Example anonymous_Push_names_with_a_keeping_constructor :
  @keeps_hint (fun hint _ => hint)
  ∧ ∃ s',
      @push_all string (fun hint _ => hint)
        [ByExpr (EOp "e1"); ByType (Some "int32") (EOp "e2")]
        {| fresh_node := 0; this := LetList_new |}
      = Ok [mkVar 0 "x" None; mkVar 1 "x" (Some "int32")] s'.
Proof.
  split; [intros hint n; reflexivity|]. eexists. reflexivity.
Qed.

(** A thousand anonymous pushes in a row on a new builder: the nodes of
    the returned variables are 0, 1, ..., 999, without repetition. *)
Example thousand_anonymous_pushes :
  ∃ vs s',
    push_all (replicate 1000 (ByExpr (EOp "e")))
             {| fresh_node := 0; this := @LetList_new string |}
    = Ok vs s'
    ∧ node <$> vs = seq 0 1000
    ∧ NoDup (node <$> vs).
Proof.
  destruct (push_all (replicate 1000 (ByExpr (EOp "e")))
                     {| fresh_node := 0; this := @LetList_new string |})
    as [vs s'|err s'] eqn:Hrun.
  - exists vs, s'. split; [reflexivity|].
    assert (Hnodes : node <$> vs = seq 0 1000).
    { transitivity
        (match push_all (replicate 1000 (ByExpr (EOp "e")))
                        {| fresh_node := 0; this := @LetList_new string |} with
         | Ok vs _ => node <$> vs
         | Fatal _ _ => []
         end).
      - rewrite Hrun. reflexivity.
      - vm_compute. reflexivity. }
    split; [exact Hnodes|]. rewrite Hnodes. apply NoDup_ListNoDup, List.seq_NoDup.
  - exfalso.
    assert (Hok : match push_all (replicate 1000 (ByExpr (EOp "e")))
                                 {| fresh_node := 0; this := @LetList_new string |} with
                  | Ok _ _ => true
                  | Fatal _ _ => false
                  end = true) by (vm_compute; reflexivity).
    rewrite Hrun in Hok. discriminate.
Qed.

(** ** The further properties at concrete builders *)

Lemma closed_builder_is_inert_witness :
  closed {| fresh_node := 1;
            this := {| lets_ := [(@mkVar string 0 "a" None, EOp "one")]; used_ := true |} |}
  ∧ this (state_of
      (run (Call_Push (EOp "two") (fun v => Call_Get (EVar v) (fun r => Return r)))
           {| fresh_node := 1;
              this := {| lets_ := [(@mkVar string 0 "a" None, EOp "one")];
                         used_ := true |} |}))
    = {| lets_ := [(mkVar 0 "a" None, EOp "one")]; used_ := true |}.
Proof.
  split; [reflexivity|].
  apply (closed_builder_is_inert
           (Call_Push (EOp "two") (fun v => Call_Get (EVar v) (fun r => Return r)))
           {| fresh_node := 1;
              this := {| lets_ := [(@mkVar string 0 "a" None, EOp "one")];
                         used_ := true |} |}).
  reflexivity.
Defined.

Lemma check_fails_on_closed_builder_only_witness :
  run (Call_Get (EOp "body") (fun r => Call_Push r (fun v => Return (EVar v))))
      {| fresh_node := 0; this := @LetList_new string |}
  = Fatal (CheckFailed "!used_")
          {| fresh_node := 1; this := {| lets_ := []; used_ := true |} |}
  ∧ "!used_" = "!used_"
  ∧ @closed string {| fresh_node := 1; this := {| lets_ := []; used_ := true |} |}.
Proof.
  split; [reflexivity|].
  apply (check_fails_on_closed_builder_only
           (Call_Get (EOp "body") (fun r => Call_Push r (fun v => Return (EVar v))))
           {| fresh_node := 0; this := @LetList_new string |}).
  reflexivity.
Defined.




Lemma With_dies_when_callable_closed_the_builder_witness :
  run (Call_Push (EOp "one") (fun v => Call_Get (EVar v) (fun r => Return r)))
      {| fresh_node := 0; this := @LetList_new string |}
  = Ok (ELet (mkVar 0 "x" None) (EOp "one") (EVar (mkVar 0 "x" None)))
       {| fresh_node := 1;
          this := {| lets_ := [(mkVar 0 "x" None, EOp "one")]; used_ := true |} |}
  ∧ closed {| fresh_node := 1;
              this := {| lets_ := [(@mkVar string 0 "x" None, EOp "one")];
                         used_ := true |} |}
  ∧ With (run (Call_Push (EOp "one") (fun v => Call_Get (EVar v) (fun r => Return r)))) 0
    = Fatal (CheckFailed "!used_")
            {| fresh_node := 1;
               this := {| lets_ := [(@mkVar string 0 "x" None, EOp "one")];
                          used_ := true |} |}.
Proof.
  split; [reflexivity|]. split; [reflexivity|].
  apply (With_dies_when_callable_closed_the_builder
           (Call_Push (EOp "one") (fun v => Call_Get (EVar v) (fun r => Return r))) 0
           (ELet (mkVar 0 "x" None) (EOp "one") (EVar (mkVar 0 "x" None))));
    reflexivity.
Defined.


Lemma anonymous_only_client_keeps_binders_distinct_witness :
  anonymous_only (mult_sixteen_body (@mkVar string 0 "a" None))
  ∧ distinct_binders 1 {| fresh_node := 1; this := @LetList_new string |}
  ∧ distinct_binders 1
      (state_of (run (mult_sixteen_body (@mkVar string 0 "a" None))
                     {| fresh_node := 1; this := LetList_new |})).
Proof.
  assert (Hnew : distinct_binders 1 {| fresh_node := 1; this := @LetList_new string |}).
  { split; [simpl; lia|]. split; constructor. }
  split; [simpl; intros; exact I|]. split; [exact Hnew|].
  apply anonymous_only_client_keeps_binders_distinct;
    [simpl; intros; exact I | exact Hnew].
Defined.

Lemma Push_Var_keeps_binders_distinct_iff_witness :
  open {| fresh_node := 2;
          this := {| lets_ := [(@mkVar string 0 "a" None, EOp "one")]; used_ := false |} |}
  ∧ NoDup (bound_nodes
             {| fresh_node := 2;
                this := {| lets_ := [(@mkVar string 0 "a" None, EOp "one")];
                           used_ := false |} |})
  ∧ (NoDup (bound_nodes
              (state_of (Push_Var (mkVar 0 "a" None) (EOp "two")
                 {| fresh_node := 2;
                    this := {| lets_ := [(@mkVar string 0 "a" None, EOp "one")];
                               used_ := false |} |})))
     ↔ 0 ∉ bound_nodes
             {| fresh_node := 2;
                this := {| lets_ := [(@mkVar string 0 "a" None, EOp "one")];
                           used_ := false |} |}).
Proof.
  assert (Hnd : NoDup (bound_nodes
             {| fresh_node := 2;
                this := {| lets_ := [(@mkVar string 0 "a" None, EOp "one")];
                           used_ := false |} |})).
  { apply NoDup_singleton. }
  split; [reflexivity|]. split; [exact Hnd|].
  apply (Push_Var_keeps_binders_distinct_iff
           {| fresh_node := 2;
              this := {| lets_ := [(@mkVar string 0 "a" None, EOp "one")];
                         used_ := false |} |}
           (mkVar 0 "a" None) (EOp "two") eq_refl Hnd).
Defined.

Lemma With_doubling_refers_to_a_twice_witness :
  0 < 1
  ∧ ∃ e s,
      With (run (doubling 3 (@mkVar string 0 "a" None))) 1 = Ok e s
      ∧ occurrences 0 e = 2
      ∧ occurrences 0 (expand e) = 2 ^ (3 + 1).
Proof.
  split; [lia|].
  apply (With_doubling_refers_to_a_twice 3 (@mkVar string 0 "a" None) 1). simpl. lia.
Defined.
